(** * MAPEstimator: maximum a-posteriori estimator for unigram probabilities

    Shallow embedding of [src/cp1/src/MAPEstimator.py] and the properties
    of its three operations [fit], [predict_proba] and [score].

    Numbers.  [total_count] and the entries of [count_V] are counts and are
    modelled as [nat] (the float array [np.zeros] only ever receives [+= 1]).
    [alpha] and the probabilities are modelled as exact rationals [Q] (every
    finite float is a rational), the logarithms of [score] as reals [R].
    numpy does not raise on a division by zero or on the logarithm of a
    non-positive number: it returns [inf], [-inf] or [nan].  These three
    values are kept in the model ([xnum]). *)

From Stdlib Require Import String List Bool Arith ZArith QArith Qreals Reals Psatz.
From Stdlib Require Import Permutation.
Import ListNotations.

Close Scope R_scope.
Close Scope Q_scope.
Close Scope Z_scope.
Open Scope nat_scope.

(** ** Exceptions and results *)

(** The Python exceptions the code can raise.  [EmptyInput] is the name the
    specification gives to a dedicated error for an empty [score] input; it
    is listed so that statements can mention it. *)
Inductive exn : Set :=
| KeyError            (* Vocabulary.get_word_id: word not in the vocabulary *)
| ValueError          (* predict_proba: alpha does not yield a valid MAP estimate *)
| ZeroDivisionError   (* Python float division by an int zero *)
| TypeError           (* iterating or indexing None *)
| IndexError          (* array index out of bounds *)
| EmptyInput.

(** The specification's names of the two error kinds the code has. *)
Definition UnknownWord : exn := KeyError.
Definition InvalidMAPHyperparameter : exn := ValueError.

Inductive result (A : Type) : Type :=
| Ok (a : A)
| Raise (x : exn).
Arguments Ok {A} a.
Arguments Raise {A} x.

Definition bind {A B : Type} (r : result A) (k : A -> result B) : result B :=
  match r with
  | Ok a => k a
  | Raise x => Raise x
  end.

Notation "x <- r ;; k" := (bind r (fun x => k))
  (at level 61, r at next level, right associativity).

(** ** Floating-point values: a finite number, or one of the three specials *)

Inductive xnum (A : Type) : Type :=
| Fin (x : A)
| PInf
| NInf
| NaN.
Arguments Fin {A} x.
Arguments PInf {A}.
Arguments NInf {A}.
Arguments NaN {A}.

Definition Qlt_bool (a b : Q) : bool := negb (Qle_bool b a).

(** [np.float64 / float]: a zero divisor gives [inf], [-inf] or [nan] by the
    sign of the dividend (the divisor [total_count + size * (alpha - 1)] is
    never a negative zero). *)
Definition np_div (n d : Q) : xnum Q :=
  if Qeq_bool d 0 then
    if Qlt_bool 0 n then PInf
    else if Qlt_bool n 0 then NInf
    else NaN
  else Fin (n / d)%Q.

(** Addition of floating-point values over an exact carrier. *)
Definition xadd {A : Type} (add : A -> A -> A) (a b : xnum A) : xnum A :=
  match a, b with
  | NaN, _ | _, NaN => NaN
  | PInf, NInf | NInf, PInf => NaN
  | PInf, _ | _, PInf => PInf
  | NInf, _ | _, NInf => NInf
  | Fin x, Fin y => Fin (add x y)
  end.

(** [np.log]: [-inf] at zero, [nan] below zero. *)
Definition np_log (p : xnum Q) : xnum R :=
  match p with
  | Fin q =>
      if Qlt_bool 0 q then Fin (ln (Q2R q))
      else if Qeq_bool q 0 then NInf
      else NaN
  | PInf => PInf
  | NInf => NaN
  | NaN => NaN
  end.

(** [np.float64 / int] for a positive [int]. *)
Definition xdiv_nat (a : xnum R) (n : nat) : xnum R :=
  match a with
  | Fin x => Fin (x / INR n)%R
  | PInf => PInf
  | NInf => NInf
  | NaN => NaN
  end.

(** ** Vocabulary *)

(** Modelled from the spec: the class [Vocabulary] (module [Vocabulary],
    imported by the estimator) is not part of the sources.  The spec gives it
    a fixed set of distinct words, a [size], and [get_word_id], which maps a
    word to a stable identifier in [[0, size)] and fails with a "word not
    found" error on an unknown word.  A vocabulary is represented by its
    words listed by identifier. *)
Record Vocabulary : Type := mkVocabulary { vocab_words : list string }.

Definition size (v : Vocabulary) : nat := length (vocab_words v).

Fixpoint index_of (word : string) (ws : list string) : option nat :=
  match ws with
  | [] => None
  | w :: ws' =>
      if String.eqb w word then Some 0
      else option_map S (index_of word ws')
  end.

Definition get_word_id (v : Vocabulary) (word : string) : result nat :=
  match index_of word (vocab_words v) with
  | Some i => Ok i
  | None => Raise KeyError
  end.

(** The words of a vocabulary are distinct. *)
Definition vocab_wf (v : Vocabulary) : Prop := NoDup (vocab_words v).

Definition in_vocab (v : Vocabulary) (word : string) : Prop :=
  In word (vocab_words v).

(** ** The estimator *)

Record MAPEstimator : Type := mkMAPEstimator {
  vocab : Vocabulary;
  alpha : Q;
  total_count : nat;
  count_V : option (list nat)   (* None until fit is called *)
}.

(** [__init__(self, vocab, alpha=2.0)] *)
Definition init (v : Vocabulary) (a : Q) : MAPEstimator :=
  {| vocab := v; alpha := a; total_count := 0; count_V := None |}.

Definition set_total_count (e : MAPEstimator) (n : nat) : MAPEstimator :=
  {| vocab := vocab e; alpha := alpha e; total_count := n; count_V := count_V e |}.

Definition set_count_V (e : MAPEstimator) (cv : option (list nat)) : MAPEstimator :=
  {| vocab := vocab e; alpha := alpha e; total_count := total_count e; count_V := cv |}.

(** [a[i] += 1] on an array; the caller checks the bound. *)
Fixpoint incr_at (i : nat) (a : list nat) : list nat :=
  match a, i with
  | [], _ => []
  | c :: a', 0 => S c :: a'
  | c :: a', S i' => c :: incr_at i' a'
  end.

(** The loop of [fit].  The state is threaded through; an exception leaves
    the state as it is at the raise. *)
Fixpoint fit_loop (e : MAPEstimator) (word_list : list string)
  : MAPEstimator * result unit :=
  match word_list with
  | [] => (e, Ok tt)
  | word :: rest =>
      let e1 := set_total_count e (total_count e + 1) in
      match get_word_id (vocab e1) word with
      | Raise x => (e1, Raise x)
      | Ok word_id =>
          match count_V e1 with
          | None => (e1, Raise TypeError)
          | Some cv =>
              if word_id <? length cv
              then fit_loop (set_count_V e1 (Some (incr_at word_id cv))) rest
              else (e1, Raise IndexError)
          end
      end
  end.

Definition fit (e : MAPEstimator) (word_list : list string)
  : MAPEstimator * result unit :=
  let e1 := set_count_V e (Some (repeat 0 (size (vocab e)))) in
  let e2 := set_total_count e1 0 in
  fit_loop e2 word_list.

Definition all_vocab_seen (e : MAPEstimator) (cv : list nat) : bool :=
  length (filter (fun i => 0 <? i) cv) =? size (vocab e).

Definition of_nat (n : nat) : Q := inject_Z (Z.of_nat n).

Definition numerator (e : MAPEstimator) (c : nat) : Q :=
  (of_nat c + alpha e - 1)%Q.

Definition denominator (e : MAPEstimator) : Q :=
  (of_nat (total_count e) + of_nat (size (vocab e)) * (alpha e - 1))%Q.

Definition predict_proba (e : MAPEstimator) (word : string) : result (xnum Q) :=
  match count_V e with
  | None => Raise TypeError
  | Some cv =>
      let map_exists := all_vocab_seen e cv || Qlt_bool 1 (alpha e) in
      if negb map_exists then Raise ValueError
      else
        word_id <- get_word_id (vocab e) word ;;
        match nth_error cv word_id with
        | None => Raise IndexError
        | Some c => Ok (np_div (numerator e c) (denominator e))
        end
  end.

Fixpoint score_loop (e : MAPEstimator) (total_log_proba : xnum R)
  (word_list : list string) : result (xnum R) :=
  match word_list with
  | [] => Ok total_log_proba
  | word :: rest =>
      p <- predict_proba e word ;;
      score_loop e (xadd Rplus total_log_proba (np_log p)) rest
  end.

(** With an empty list the sum is still the Python float [0.0], and
    [0.0 / 0] raises [ZeroDivisionError]. *)
Definition score (e : MAPEstimator) (word_list : list string) : result (xnum R) :=
  total_log_proba <- score_loop e (Fin 0%R) word_list ;;
  match word_list with
  | [] => Raise ZeroDivisionError
  | _ :: _ => Ok (xdiv_nat total_log_proba (length word_list))
  end.

(** ** Notions of the specification *)

(** The MAP existence condition: every slot of [count_V] is strictly
    positive, or [alpha > 1]. *)
Definition map_exists (e : MAPEstimator) : Prop :=
  (exists cv, count_V e = Some cv /\ Forall (fun c => 0 < c) cv)
  \/ (1 < alpha e)%Q.

(** A fitted estimator: the state a successful [fit] leaves. *)
Definition fitted (e : MAPEstimator) : Prop :=
  exists e0 word_list, fit e0 word_list = (e, Ok tt).

Definition sum_counts (cv : list nat) : nat := fold_right Nat.add 0 cv.

(** ** Quantities the specification speaks of *)

(** The sum of [predict_proba] over all the words of the vocabulary. *)
Fixpoint sum_proba_over (e : MAPEstimator) (ws : list string) : result (xnum Q) :=
  match ws with
  | [] => Ok (Fin 0%Q)
  | w :: ws' =>
      p <- predict_proba e w ;;
      s <- sum_proba_over e ws' ;;
      Ok (xadd Qplus p s)
  end.

Definition sum_proba (e : MAPEstimator) : result (xnum Q) :=
  sum_proba_over e (vocab_words (vocab e)).

(** The arithmetic mean of [log(predict_proba(w))] over a word list, written
    as the specification words it: the sum of the per-word log-probabilities
    divided by the length of the list. *)
Definition log_proba (e : MAPEstimator) (word : string) : result (xnum R) :=
  p <- predict_proba e word ;; Ok (np_log p).

Fixpoint sum_log_proba (e : MAPEstimator) (word_list : list string)
  : result (xnum R) :=
  match word_list with
  | [] => Ok (Fin 0%R)
  | w :: rest =>
      l <- log_proba e w ;;
      s <- sum_log_proba e rest ;;
      Ok (xadd Rplus l s)
  end.

Definition mean_log_proba (e : MAPEstimator) (word_list : list string)
  : result (xnum R) :=
  s <- sum_log_proba e word_list ;;
  Ok (xdiv_nat s (length word_list)).

(** ** Small estimators used as test inputs *)

Definition ab_vocab : Vocabulary := mkVocabulary ["a"; "b"]%string.

(** [alpha = 1], the word "b" never observed. *)
Definition est_alpha1_unseen : MAPEstimator :=
  fst (fit (init ab_vocab 1) ["a"]%string).

(** [alpha = 1], both words observed. *)
Definition est_alpha1_seen : MAPEstimator :=
  fst (fit (init ab_vocab 1) ["a"; "b"; "a"]%string).

(** [alpha = 0], both words observed once: the divisor is [2 + 2 * (0 - 1) = 0]. *)
Definition est_alpha0 : MAPEstimator :=
  fst (fit (init ab_vocab 0) ["a"; "b"]%string).

(** [alpha = -1/2], counts [1; 3]: the divisor is [4 + 2 * (-3/2) = 1]. *)
Definition est_alpha_neg : MAPEstimator :=
  fst (fit (init ab_vocab (-1 # 2)) ["a"; "b"; "b"; "b"]%string).

(** ** The docstring's example *)

Definition dino_vocab : Vocabulary :=
  mkVocabulary ["dinosaur"; "trex"; "stegosaurus"]%string.

Definition dino_list : list string :=
  ["dinosaur"; "trex"; "dinosaur"; "stegosaurus"]%string.

Definition dino_est : MAPEstimator := fst (fit (init dino_vocab 2) dino_list).

Example dino_proba :
  predict_proba dino_est "dinosaur" = Ok (Fin (3 # 7)%Q).
Proof. reflexivity. Qed.

(** ** Vocabulary lookups *)

Lemma index_of_nth word ws i :
  index_of word ws = Some i -> nth_error ws i = Some word.
Proof.
  revert i; induction ws as [|w ws IH]; simpl; intros i H; [discriminate|].
  destruct (String.eqb w word) eqn:E.
  - apply String.eqb_eq in E. injection H as <-. now subst.
  - destruct (index_of word ws) as [j|]; simpl in H; [|discriminate].
    injection H as <-. simpl. now apply IH.
Qed.

Lemma index_of_lt word ws i :
  index_of word ws = Some i -> i < length ws.
Proof.
  intros H. apply index_of_nth in H.
  apply nth_error_Some. congruence.
Qed.

Lemma index_of_In word ws :
  In word ws -> exists i, index_of word ws = Some i.
Proof.
  induction ws as [|w ws IH]; simpl; [tauto|].
  intros H. destruct (String.eqb w word) eqn:E; [now exists 0|].
  destruct H as [->|H]; [rewrite String.eqb_refl in E; discriminate|].
  destruct (IH H) as [i ->]. now exists (S i).
Qed.

Lemma index_of_not_In word ws :
  ~ In word ws -> index_of word ws = None.
Proof.
  intros H. destruct (index_of word ws) as [i|] eqn:E; [|reflexivity].
  exfalso. apply H. apply index_of_nth in E. eapply nth_error_In; eauto.
Qed.

Lemma index_of_inj w1 w2 ws i :
  index_of w1 ws = Some i -> index_of w2 ws = Some i -> w1 = w2.
Proof.
  intros H1 H2. apply index_of_nth in H1. apply index_of_nth in H2. congruence.
Qed.

Lemma index_of_NoDup ws :
  NoDup ws -> forall i word, nth_error ws i = Some word -> index_of word ws = Some i.
Proof.
  induction 1 as [|w ws Hnin Hnd IH]; intros [|i] word H; simpl in *; try discriminate.
  - injection H as ->. now rewrite String.eqb_refl.
  - destruct (String.eqb w word) eqn:E.
    + apply String.eqb_eq in E. subst. exfalso. apply Hnin.
      eapply nth_error_In; eauto.
    + now rewrite (IH _ _ H).
Qed.

Lemma get_word_id_known v word :
  in_vocab v word -> exists i, get_word_id v word = Ok i /\ i < size v.
Proof.
  intros H. destruct (index_of_In _ _ H) as [i Hi].
  exists i. unfold get_word_id, size. rewrite Hi. split; [reflexivity|].
  eapply index_of_lt; eauto.
Qed.

Lemma get_word_id_unknown v word :
  ~ in_vocab v word -> get_word_id v word = Raise KeyError.
Proof.
  intros H. unfold get_word_id. now rewrite index_of_not_In.
Qed.

Lemma get_word_id_Ok v word i :
  get_word_id v word = Ok i -> index_of word (vocab_words v) = Some i.
Proof.
  unfold get_word_id. destruct (index_of word (vocab_words v)); congruence.
Qed.

(** ** Incrementing one slot *)

Lemma incr_at_length i cv : length (incr_at i cv) = length cv.
Proof.
  revert i; induction cv as [|c cv IH]; intros [|i]; simpl; auto.
Qed.

Lemma incr_at_sum i cv :
  i < length cv -> sum_counts (incr_at i cv) = S (sum_counts cv).
Proof.
  revert i; induction cv as [|c cv IH]; intros [|i]; simpl; intros H; try lia.
  rewrite IH; lia.
Qed.

Lemma incr_at_nth_same i cv :
  nth_error (incr_at i cv) i = option_map S (nth_error cv i).
Proof.
  revert i; induction cv as [|c cv IH]; intros [|i]; simpl; auto.
Qed.

Lemma incr_at_nth_other i j cv :
  i <> j -> nth_error (incr_at i cv) j = nth_error cv j.
Proof.
  revert i j; induction cv as [|c cv IH]; intros [|i] [|j]; simpl; intros H;
    auto; try congruence.
Qed.

Lemma sum_counts_repeat n : sum_counts (repeat 0 n) = 0.
Proof. induction n; simpl; auto. Qed.

(** ** The loop of [fit] on words of the vocabulary *)

Lemma fit_loop_known word_list : forall e cv,
  count_V e = Some cv ->
  length cv = size (vocab e) ->
  Forall (in_vocab (vocab e)) word_list ->
  exists cv',
    fit_loop e word_list =
      (mkMAPEstimator (vocab e) (alpha e)
         (total_count e + length word_list) (Some cv'), Ok tt)
    /\ length cv' = length cv
    /\ sum_counts cv' = sum_counts cv + length word_list
    /\ forall word i, get_word_id (vocab e) word = Ok i ->
         nth_error cv' i =
         option_map (fun c => c + count_occ string_dec word_list word)
                    (nth_error cv i).
Proof.
  induction word_list as [|w rest IH]; intros e cv Hcv Hlen Hall.
  - exists cv. simpl. repeat split.
    + destruct e; simpl in *. now rewrite Nat.add_0_r, Hcv.
    + lia.
    + intros word i _. destruct (nth_error cv i); simpl; [f_equal; lia | reflexivity].
  - inversion Hall as [|? ? Hw Hrest]; subst.
    destruct (get_word_id_known _ _ Hw) as [i [Hi Hlt]].
    simpl. rewrite Hi, Hcv.
    assert (Hb : (i <? length cv) = true) by (apply Nat.ltb_lt; lia).
    rewrite Hb.
    destruct (IH (set_count_V (set_total_count e (total_count e + 1))
                    (Some (incr_at i cv))) (incr_at i cv))
      as [cv' [Hfit [Hl [Hs Hn]]]]; simpl; auto.
    { now rewrite incr_at_length. }
    exists cv'. repeat split.
    + rewrite Hfit. simpl. do 2 f_equal. lia.
    + now rewrite Hl, incr_at_length.
    + rewrite Hs, incr_at_sum; lia.
    + intros word j Hj. rewrite (Hn _ _ Hj).
      destruct (string_dec w word) as [->|Hne].
      * assert (i = j) by congruence. subst j.
        rewrite incr_at_nth_same.
        destruct (nth_error cv i); simpl; [f_equal; lia | reflexivity].
      * assert (i <> j).
        { intros ->. apply Hne.
          eapply index_of_inj; eapply get_word_id_Ok; eauto. }
        now rewrite incr_at_nth_other.
Qed.

(** ** What [fit] leaves behind *)

Lemma nth_error_repeat_0 n i : i < n -> nth_error (repeat 0 n) i = Some 0.
Proof.
  revert i; induction n as [|n IH]; intros [|i] H; simpl; try lia; auto.
  apply IH; lia.
Qed.

Lemma fit_known e0 word_list :
  Forall (in_vocab (vocab e0)) word_list ->
  exists cv,
    fit e0 word_list =
      (mkMAPEstimator (vocab e0) (alpha e0) (length word_list) (Some cv), Ok tt)
    /\ length cv = size (vocab e0)
    /\ sum_counts cv = length word_list
    /\ forall word i, get_word_id (vocab e0) word = Ok i ->
         nth_error cv i = Some (count_occ string_dec word_list word).
Proof.
  intros Hall. unfold fit.
  destruct (fit_loop_known word_list
              (set_total_count
                 (set_count_V e0 (Some (repeat 0 (size (vocab e0))))) 0)
              (repeat 0 (size (vocab e0))))
    as [cv [Hfit [Hl [Hs Hn]]]]; simpl; auto.
  { apply repeat_length. }
  exists cv. simpl in *. repeat split; auto.
  - now rewrite Hl, repeat_length.
  - now rewrite Hs, sum_counts_repeat.
  - intros word i Hi. rewrite (Hn _ _ Hi).
    rewrite nth_error_repeat_0; [reflexivity|].
    apply get_word_id_Ok, index_of_lt in Hi. exact Hi.
Qed.

Lemma fit_loop_app l1 : forall e l2,
  fit_loop e (l1 ++ l2) =
  match fit_loop e l1 with
  | (e1, Ok _) => fit_loop e1 l2
  | (e1, Raise x) => (e1, Raise x)
  end.
Proof.
  induction l1 as [|w l1 IH]; intros e l2; simpl; [reflexivity|].
  destruct (get_word_id (vocab e) w); [|reflexivity].
  destruct (count_V e); [|reflexivity].
  destruct (a <? length l); [apply IH | reflexivity].
Qed.

(** A [fit] that returns has only met words of the vocabulary. *)
Lemma fit_loop_returns word_list : forall e e',
  fit_loop e word_list = (e', Ok tt) ->
  Forall (in_vocab (vocab e)) word_list.
Proof.
  induction word_list as [|w rest IH]; intros e e' H; [constructor|].
  simpl in H.
  destruct (get_word_id (vocab e) w) as [i|] eqn:Hi; [|discriminate].
  destruct (count_V e) as [cv|]; [|discriminate].
  destruct (i <? length cv); [|discriminate].
  constructor.
  - apply get_word_id_Ok, index_of_nth in Hi. eapply nth_error_In; eauto.
  - apply (IH _ _ H).
Qed.

Lemma fitted_inv e :
  fitted e ->
  exists cv, count_V e = Some cv
    /\ length cv = size (vocab e)
    /\ sum_counts cv = total_count e.
Proof.
  intros [e0 [word_list H]].
  assert (Hall : Forall (in_vocab (vocab e0)) word_list).
  { unfold fit in H. apply fit_loop_returns in H. exact H. }
  destruct (fit_known e0 word_list Hall) as [cv [Hfit [Hl [Hs _]]]].
  rewrite Hfit in H. injection H as <-. exists cv. simpl. auto.
Qed.

(** ** The MAP existence check *)

Lemma Qlt_bool_iff a b : Qlt_bool a b = true <-> (a < b)%Q.
Proof.
  unfold Qlt_bool. rewrite negb_true_iff. split; intros H.
  - apply Qnot_le_lt. intros Hle. apply Qle_bool_iff in Hle. congruence.
  - destruct (Qle_bool b a) eqn:E; [|reflexivity].
    apply Qle_bool_iff in E. exfalso. exact (Qlt_not_le _ _ H E).
Qed.

Lemma filter_length_all {A} (f : A -> bool) l :
  length (filter f l) = length l <-> Forall (fun x => f x = true) l.
Proof.
  induction l as [|x l IH]; simpl.
  - split; auto.
  - pose proof (filter_length_le f l) as Hle.
    destruct (f x) eqn:E; simpl; split; intros H.
    + constructor; [exact E | apply IH; lia].
    + inversion H; subst. f_equal. now apply IH.
    + lia.
    + inversion H; subst. congruence.
Qed.

Lemma all_vocab_seen_iff e cv :
  length cv = size (vocab e) ->
  all_vocab_seen e cv = true <-> Forall (fun c => 0 < c) cv.
Proof.
  intros Hlen. unfold all_vocab_seen. rewrite Nat.eqb_eq, <- Hlen.
  rewrite filter_length_all.
  split; apply Forall_impl; intros c Hc; apply Nat.ltb_lt; exact Hc.
Qed.

Lemma map_exists_iff e cv :
  count_V e = Some cv ->
  length cv = size (vocab e) ->
  all_vocab_seen e cv || Qlt_bool 1 (alpha e) = true <-> map_exists e.
Proof.
  intros Hcv Hlen. rewrite orb_true_iff, all_vocab_seen_iff, Qlt_bool_iff by exact Hlen.
  unfold map_exists. split; intros [H|H]; auto.
  - left. exists cv. auto.
  - destruct H as [cv' [Hcv' Hall]]. left. congruence.
Qed.

(** ** [predict_proba] on a fitted estimator *)

Lemma predict_proba_raises e cv word :
  count_V e = Some cv ->
  length cv = size (vocab e) ->
  ~ map_exists e ->
  predict_proba e word = Raise ValueError.
Proof.
  intros Hcv Hlen Hno. unfold predict_proba. rewrite Hcv.
  destruct (all_vocab_seen e cv || Qlt_bool 1 (alpha e)) eqn:E; [|reflexivity].
  exfalso. apply Hno. eapply map_exists_iff; eauto.
Qed.

Lemma predict_proba_known e cv word :
  count_V e = Some cv ->
  length cv = size (vocab e) ->
  map_exists e ->
  in_vocab (vocab e) word ->
  exists i c,
    get_word_id (vocab e) word = Ok i
    /\ nth_error cv i = Some c
    /\ predict_proba e word = Ok (np_div (numerator e c) (denominator e)).
Proof.
  intros Hcv Hlen Hmap Hin.
  destruct (get_word_id_known _ _ Hin) as [i [Hi Hlt]].
  destruct (nth_error cv i) as [c|] eqn:Hc.
  2:{ apply nth_error_None in Hc. lia. }
  exists i, c. repeat split; auto.
  unfold predict_proba. rewrite Hcv.
  apply (map_exists_iff e cv Hcv Hlen) in Hmap. rewrite Hmap. simpl.
  rewrite Hi. simpl. now rewrite Hc.
Qed.

Lemma predict_proba_unknown e cv word :
  count_V e = Some cv ->
  length cv = size (vocab e) ->
  map_exists e ->
  ~ in_vocab (vocab e) word ->
  predict_proba e word = Raise KeyError.
Proof.
  intros Hcv Hlen Hmap Hin.
  unfold predict_proba. rewrite Hcv.
  apply (map_exists_iff e cv Hcv Hlen) in Hmap. rewrite Hmap. simpl.
  now rewrite get_word_id_unknown.
Qed.

(** ** Properties of [fit] *)

(** C2 (count conservation).  For every word list whose words are all in the
    vocabulary, [fit] returns, and afterwards the sum of [count_V], the
    length of the list and [total_count] are all equal; [count_V] has
    exactly [vocab.size] entries, and the entry at the identifier of a word
    is the number of times the word occurs in the list. *)
Theorem fit_count_conservation (e0 : MAPEstimator) (word_list : list string)
  (Hknown : Forall (in_vocab (vocab e0)) word_list) :
  exists e cv,
    fit e0 word_list = (e, Ok tt)
    /\ vocab e = vocab e0
    /\ count_V e = Some cv
    /\ sum_counts cv = length word_list
    /\ total_count e = length word_list
    /\ length cv = size (vocab e)
    /\ forall word i, get_word_id (vocab e) word = Ok i ->
         nth_error cv i = Some (count_occ string_dec word_list word).
Proof.
  destruct (fit_known e0 word_list Hknown) as [cv [Hfit [Hl [Hs Hn]]]].
  eexists; exists cv. split; [exact Hfit|]. simpl. auto 10.
Qed.

Lemma fit_count_conservation_witness :
  exists e cv,
    fit (init dino_vocab 2) dino_list = (e, Ok tt)
    /\ vocab e = dino_vocab
    /\ count_V e = Some cv
    /\ sum_counts cv = 4
    /\ total_count e = 4
    /\ length cv = size (vocab e)
    /\ forall word i, get_word_id (vocab e) word = Ok i ->
         nth_error cv i = Some (count_occ string_dec dino_list word).
Proof.
  apply (fit_count_conservation (init dino_vocab 2) dino_list).
  repeat constructor; simpl; tauto.
Defined.

(** C8 (re-fit overwrite).  For word lists [L1] and [L2] over the
    vocabulary, [fit(L1)] followed by [fit(L2)] leaves exactly the state
    that [fit(L2)] alone leaves on a fresh estimator: the second call
    replaces the counts of the first, it does not add to them. *)
Theorem refit_overwrites (e0 : MAPEstimator) (L1 L2 : list string)
  (H1 : Forall (in_vocab (vocab e0)) L1)
  (H2 : Forall (in_vocab (vocab e0)) L2) :
  exists e1 e2,
    fit e0 L1 = (e1, Ok tt)
    /\ fit e1 L2 = (e2, Ok tt)
    /\ fit (init (vocab e0) (alpha e0)) L2 = (e2, Ok tt)
    /\ total_count e2 = length L2
    /\ forall cv, count_V e2 = Some cv -> sum_counts cv = length L2.
Proof.
  destruct (fit_known e0 L1 H1) as [cv1 [Hfit1 _]].
  destruct (fit_known e0 L2 H2) as [cv2 [Hfit2 [_ [Hs2 _]]]].
  do 2 eexists. split; [exact Hfit1|].
  split; [exact Hfit2|]. split; [exact Hfit2|]. split; [reflexivity|].
  intros cv Hcv. simpl in Hcv. congruence.
Qed.

Lemma refit_overwrites_witness :
  exists e1 e2,
    fit (init ab_vocab 2) ["a"; "a"; "b"]%string = (e1, Ok tt)
    /\ fit e1 ["b"]%string = (e2, Ok tt)
    /\ fit (init ab_vocab 2) ["b"]%string = (e2, Ok tt)
    /\ total_count e2 = 1
    /\ forall cv, count_V e2 = Some cv -> sum_counts cv = 1.
Proof.
  apply (refit_overwrites (init ab_vocab 2) ["a"; "a"; "b"]%string ["b"]%string);
    repeat constructor; simpl; tauto.
Defined.

(** C10 (a failing [fit] is not atomic).  When the first [k] words of the
    list are in the vocabulary and the next one is not, [fit] raises the
    word-not-found error and leaves [total_count = k + 1] while the sum of
    [count_V] is [k]: the counter is incremented before the lookup that
    fails, so the two differ after the failed call. *)
Theorem fit_not_atomic (e0 : MAPEstimator) (known : list string)
  (word : string) (rest : list string)
  (Hknown : Forall (in_vocab (vocab e0)) known)
  (Hword : ~ in_vocab (vocab e0) word) :
  exists e cv,
    fit e0 (known ++ word :: rest) = (e, Raise UnknownWord)
    /\ total_count e = length known + 1
    /\ count_V e = Some cv
    /\ sum_counts cv = length known
    /\ sum_counts cv <> total_count e.
Proof.
  destruct (fit_known e0 known Hknown) as [cv [Hfit [Hl [Hs _]]]].
  unfold fit in *. rewrite fit_loop_app, Hfit. simpl.
  rewrite (get_word_id_unknown _ _ Hword).
  eexists; exists cv. split; [reflexivity|]. simpl.
  repeat split; auto; lia.
Qed.

Lemma fit_not_atomic_witness :
  exists e cv,
    fit (init ab_vocab 2)
      (["a"%string; "b"%string] ++ "zebra"%string :: ["a"%string])
      = (e, Raise UnknownWord)
    /\ total_count e = 2 + 1
    /\ count_V e = Some cv
    /\ sum_counts cv = 2
    /\ sum_counts cv <> total_count e.
Proof.
  apply (fit_not_atomic (init ab_vocab 2) ["a"; "b"]%string "zebra"%string
           ["a"]%string).
  - repeat constructor; simpl; tauto.
  - simpl. intros [H|[H|[]]]; discriminate.
Defined.

(** ** Rational arithmetic on counts *)

Lemma of_nat_lt n m : n < m -> (of_nat n < of_nat m)%Q.
Proof. intros H. unfold of_nat. rewrite <- Zlt_Qlt. lia. Qed.

Lemma of_nat_le n m : n <= m -> (of_nat n <= of_nat m)%Q.
Proof. intros H. unfold of_nat. rewrite <- Zle_Qle. lia. Qed.

Lemma of_nat_add n m : (of_nat (n + m) == of_nat n + of_nat m)%Q.
Proof. unfold of_nat. now rewrite Nat2Z.inj_add, inject_Z_plus. Qed.

Lemma np_div_finite n d : ~ (d == 0)%Q -> np_div n d = Fin (n / d)%Q.
Proof.
  intros H. unfold np_div.
  destruct (Qeq_bool d 0) eqn:E; [|reflexivity].
  apply Qeq_bool_iff in E. contradiction.
Qed.

Lemma fitted_dino : fitted dino_est.
Proof. exists (init dino_vocab 2), dino_list. reflexivity. Qed.

Lemma fitted_alpha1_unseen : fitted est_alpha1_unseen.
Proof. exists (init ab_vocab 1), ["a"%string]. reflexivity. Qed.

Lemma fitted_alpha1_seen : fitted est_alpha1_seen.
Proof. exists (init ab_vocab 1), ["a"%string; "b"%string; "a"%string]. reflexivity. Qed.

Lemma fitted_alpha0 : fitted est_alpha0.
Proof. exists (init ab_vocab 0), ["a"%string; "b"%string]. reflexivity. Qed.

Lemma fitted_alpha_neg : fitted est_alpha_neg.
Proof.
  exists (init ab_vocab (-1 # 2)),
    ["a"%string; "b"%string; "b"%string; "b"%string].
  reflexivity.
Qed.

(** ** Properties of [predict_proba] *)

(** C1, as the claim states it, fails: on a fitted estimator with
    [alpha = 1] and an unobserved vocabulary word, [predict_proba] of a
    vocabulary word raises the invalid-hyperparameter error and returns no
    value. *)
Lemma predict_proba_formula_counterexample :
  fitted est_alpha1_unseen
  /\ in_vocab (vocab est_alpha1_unseen) "a"
  /\ predict_proba est_alpha1_unseen "a" = Raise InvalidMAPHyperparameter
  /\ forall p, predict_proba est_alpha1_unseen "a" <> Ok p.
Proof.
  split; [exact fitted_alpha1_unseen|].
  split; [left; reflexivity|].
  split; [reflexivity|]. intros p. discriminate.
Qed.

(** C1 (amended).  For every fitted estimator that passes the MAP existence
    check and every word of the vocabulary, [predict_proba] returns
    [(count_V[id] + alpha - 1) / (total_count + vocab.size * (alpha - 1))];
    in particular it returns 3/7 for "dinosaur" in the docstring's
    example. *)
Theorem predict_proba_formula (e : MAPEstimator) (word : string)
  (Hfit : fitted e) (Hmap : map_exists e) (Hin : in_vocab (vocab e) word) :
  (exists cv id c,
     count_V e = Some cv
     /\ get_word_id (vocab e) word = Ok id
     /\ nth_error cv id = Some c
     /\ predict_proba e word =
        Ok (np_div (of_nat c + alpha e - 1)%Q
              (of_nat (total_count e)
               + of_nat (size (vocab e)) * (alpha e - 1))%Q))
  /\ predict_proba dino_est "dinosaur" = Ok (Fin (3 # 7)%Q).
Proof.
  split; [|reflexivity].
  destruct (fitted_inv e Hfit) as [cv [Hcv [Hlen _]]].
  destruct (predict_proba_known e cv word Hcv Hlen Hmap Hin) as [i [c [Hi [Hc Hp]]]].
  exists cv, i, c. auto.
Qed.

Lemma map_exists_dino : map_exists dino_est.
Proof. right. reflexivity. Qed.

Lemma predict_proba_formula_witness :
  (exists cv id c,
     count_V dino_est = Some cv
     /\ get_word_id (vocab dino_est) "dinosaur" = Ok id
     /\ nth_error cv id = Some c
     /\ predict_proba dino_est "dinosaur" =
        Ok (np_div (of_nat c + alpha dino_est - 1)%Q
              (of_nat (total_count dino_est)
               + of_nat (size (vocab dino_est)) * (alpha dino_est - 1))%Q))
  /\ predict_proba dino_est "dinosaur" = Ok (Fin (3 # 7)%Q).
Proof.
  apply (predict_proba_formula dino_est "dinosaur").
  - exact fitted_dino.
  - exact map_exists_dino.
  - left. reflexivity.
Defined.

(** C5, as the claim states it, fails: with [alpha = 1] and an unobserved
    vocabulary word the existence check comes first, and a word absent from
    the vocabulary gets the invalid-hyperparameter error, not the
    unknown-word error. *)
Lemma predict_proba_unknown_word_counterexample :
  fitted est_alpha1_unseen
  /\ ~ in_vocab (vocab est_alpha1_unseen) "zebra"
  /\ predict_proba est_alpha1_unseen "zebra" = Raise InvalidMAPHyperparameter
  /\ predict_proba est_alpha1_unseen "zebra" <> Raise UnknownWord.
Proof.
  split; [exact fitted_alpha1_unseen|].
  split; [intros [H|[H|[]]]; discriminate|].
  split; [reflexivity|]. discriminate.
Qed.

(** C5 (amended).  For every fitted estimator and every word absent from
    the vocabulary, [predict_proba] raises the unknown-word error when the
    MAP existence condition holds, and the invalid-hyperparameter error when
    it does not. *)
Theorem predict_proba_unknown_word (e : MAPEstimator) (word : string)
  (Hfit : fitted e) (Hout : ~ in_vocab (vocab e) word) :
  (map_exists e -> predict_proba e word = Raise UnknownWord)
  /\ (~ map_exists e -> predict_proba e word = Raise InvalidMAPHyperparameter).
Proof.
  destruct (fitted_inv e Hfit) as [cv [Hcv [Hlen _]]].
  split; intros H.
  - exact (predict_proba_unknown e cv word Hcv Hlen H Hout).
  - exact (predict_proba_raises e cv word Hcv Hlen H).
Qed.

Lemma map_fails_alpha1_unseen : ~ map_exists est_alpha1_unseen.
Proof.
  intros [[cv [Hcv Hpos]]|Hgt]; [|discriminate Hgt].
  injection Hcv as <-. inversion Hpos as [|? ? _ Hrest]; subst.
  inversion Hrest as [|? ? H0 _]; subst. inversion H0.
Qed.

Lemma predict_proba_unknown_word_witness :
  predict_proba dino_est "never_seen-before" = Raise UnknownWord
  /\ predict_proba est_alpha1_unseen "zebra" = Raise InvalidMAPHyperparameter.
Proof.
  split.
  - apply (predict_proba_unknown_word dino_est "never_seen-before").
    + exact fitted_dino.
    + intros [H|[H|[H|[]]]]; discriminate.
    + exact map_exists_dino.
  - apply (predict_proba_unknown_word est_alpha1_unseen "zebra").
    + exact fitted_alpha1_unseen.
    + intros [H|[H|[]]]; discriminate.
    + exact map_fails_alpha1_unseen.
Defined.

(** Every slot of a successful [fit] over distinct vocabulary words holds
    the number of occurrences of its word. *)
Lemma fit_slots e0 word_list e :
  fit e0 word_list = (e, Ok tt) ->
  exists cv,
    e = mkMAPEstimator (vocab e0) (alpha e0) (length word_list) (Some cv)
    /\ length cv = size (vocab e0)
    /\ Forall (in_vocab (vocab e0)) word_list
    /\ forall word i, get_word_id (vocab e0) word = Ok i ->
         nth_error cv i = Some (count_occ string_dec word_list word).
Proof.
  intros H.
  assert (Hall : Forall (in_vocab (vocab e0)) word_list).
  { unfold fit in H. apply fit_loop_returns in H. exact H. }
  destruct (fit_known e0 word_list Hall) as [cv [Hfit [Hl [_ Hn]]]].
  exists cv. rewrite Hfit in H. injection H as <-. auto.
Qed.

Lemma all_observed_positive e0 word_list cv :
  vocab_wf (vocab e0) ->
  length cv = size (vocab e0) ->
  (forall word i, get_word_id (vocab e0) word = Ok i ->
     nth_error cv i = Some (count_occ string_dec word_list word)) ->
  (forall w, in_vocab (vocab e0) w -> In w word_list) ->
  Forall (fun c => 0 < c) cv.
Proof.
  intros Hwf Hlen Hn Hobs. apply Forall_forall. intros c Hc.
  destruct (In_nth_error _ _ Hc) as [i Hi].
  assert (Hlt : i < length (vocab_words (vocab e0))).
  { fold (size (vocab e0)). rewrite <- Hlen. apply nth_error_Some. congruence. }
  destruct (nth_error (vocab_words (vocab e0)) i) as [w|] eqn:Hw.
  2:{ apply nth_error_None in Hw. lia. }
  assert (Hid : get_word_id (vocab e0) w = Ok i).
  { unfold get_word_id. now rewrite (index_of_NoDup _ Hwf _ _ Hw). }
  rewrite (Hn _ _ Hid) in Hi. injection Hi as <-.
  apply count_occ_In. apply Hobs. eapply nth_error_In; eauto.
Qed.

(** C4 (invalid hyperparameter boundary).  With [alpha = 1]: after a fit on
    a corpus that misses some vocabulary word, [predict_proba] raises the
    invalid-hyperparameter error (on any word); after a fit on a corpus in
    which every vocabulary word occurs, [predict_proba] of a vocabulary word
    returns a probability, namely the word's count over the total count. *)
Theorem alpha_one_boundary (e0 : MAPEstimator) (word_list : list string)
  (e : MAPEstimator)
  (Hwf : vocab_wf (vocab e0))
  (Halpha : (alpha e0 == 1)%Q)
  (Hfit : fit e0 word_list = (e, Ok tt)) :
  ((exists w, in_vocab (vocab e0) w /\ ~ In w word_list) ->
     forall word, predict_proba e word = Raise InvalidMAPHyperparameter)
  /\ ((forall w, in_vocab (vocab e0) w -> In w word_list) ->
      forall word, in_vocab (vocab e0) word ->
        exists p, predict_proba e word = Ok (Fin p)
          /\ (p == of_nat (count_occ string_dec word_list word)
                   / of_nat (length word_list))%Q).
Proof.
  destruct (fit_slots _ _ _ Hfit) as [cv [-> [Hlen [Hall Hn]]]].
  split.
  - intros [w [Hw Hnot]] word.
    apply (predict_proba_raises _ cv); simpl; auto.
    intros [[cv' [Hcv' Hpos]]|Hgt]; simpl in *.
    + injection Hcv' as <-.
      destruct (get_word_id_known _ _ Hw) as [i [Hi _]].
      pose proof (Hn _ _ Hi) as Hc.
      rewrite (proj1 (count_occ_not_In string_dec word_list w) Hnot) in Hc.
      apply nth_error_In in Hc.
      rewrite Forall_forall in Hpos. specialize (Hpos _ Hc). lia.
    + rewrite Halpha in Hgt. now apply Qlt_irrefl in Hgt.
  - intros Hobs word Hword.
    pose proof (all_observed_positive e0 word_list cv Hwf Hlen Hn Hobs) as Hpos.
    destruct (predict_proba_known
                (mkMAPEstimator (vocab e0) (alpha e0) (length word_list) (Some cv))
                cv word) as [i [c [Hi [Hc Hp]]]]; simpl; auto.
    { left. exists cv. auto. }
    simpl in Hi. rewrite (Hn _ _ Hi) in Hc. injection Hc as <-.
    assert (Hlen_pos : 0 < length word_list).
    { specialize (Hobs _ Hword). destruct word_list; simpl in *; [tauto | lia]. }
    apply of_nat_lt in Hlen_pos.
    assert (Hden : (denominator
               (mkMAPEstimator (vocab e0) (alpha e0) (length word_list) (Some cv))
             == of_nat (length word_list))%Q).
    { unfold denominator. simpl. rewrite Halpha. ring. }
    eexists. split.
    + rewrite Hp, np_div_finite; [reflexivity|]. rewrite Hden.
      intros Hz. rewrite Hz in Hlen_pos. now apply Qlt_irrefl in Hlen_pos.
    + rewrite Hden. unfold numerator. simpl. rewrite Halpha.
      apply Qmult_comp; [ring | reflexivity].
Qed.

Lemma alpha_one_boundary_witness :
  (forall word, predict_proba est_alpha1_unseen word = Raise InvalidMAPHyperparameter)
  /\ (exists p, predict_proba est_alpha1_seen "a" = Ok (Fin p)
        /\ (p == of_nat 2 / of_nat 3)%Q).
Proof.
  split.
  - apply (alpha_one_boundary (init ab_vocab 1) ["a"%string] est_alpha1_unseen).
    + repeat constructor; simpl; intuition discriminate.
    + reflexivity.
    + reflexivity.
    + exists "b"%string. split; [right; left; reflexivity|].
      intros [H|[]]; discriminate.
  - apply (alpha_one_boundary (init ab_vocab 1)
             ["a"%string; "b"%string; "a"%string] est_alpha1_seen).
    + repeat constructor; simpl; intuition discriminate.
    + reflexivity.
    + reflexivity.
    + intros w [<-|[<-|[]]]; simpl; auto.
    + left. reflexivity.
Defined.

(** ** Properties of [score] *)

Lemma predict_proba_exn e word x :
  predict_proba e word = Raise x -> x <> EmptyInput /\ x <> ZeroDivisionError.
Proof.
  unfold predict_proba, get_word_id.
  destruct (count_V e) as [cv|]; [|intros [= <-]; split; discriminate].
  destruct (negb _); [intros [= <-]; split; discriminate|].
  destruct (index_of word (vocab_words (vocab e))) as [i|]; simpl;
    [|intros [= <-]; split; discriminate].
  destruct (nth_error cv i); [discriminate | intros [= <-]; split; discriminate].
Qed.

Lemma score_loop_exn e word_list : forall acc x,
  score_loop e acc word_list = Raise x ->
  x <> EmptyInput /\ x <> ZeroDivisionError.
Proof.
  induction word_list as [|w rest IH]; intros acc x H; simpl in H; [discriminate|].
  destruct (predict_proba e w) as [p|y] eqn:E; simpl in H.
  - eapply IH; eauto.
  - injection H as <-. eapply predict_proba_exn; eauto.
Qed.

(** C6, as the claim states it, fails: [score] of the empty list raises the
    arithmetic division-by-zero error, not a dedicated empty-input error. *)
Lemma score_empty_counterexample :
  score dino_est [] = Raise ZeroDivisionError
  /\ score dino_est [] <> Raise EmptyInput.
Proof. split; [reflexivity | discriminate]. Qed.

(** C6 (amended).  [score] applied to an empty word list raises the
    arithmetic division-by-zero error, whatever the state of the estimator;
    no input makes [score] raise a dedicated empty-input error, and the
    division-by-zero error is raised on the empty list only. *)
Theorem score_empty (e : MAPEstimator) :
  score e [] = Raise ZeroDivisionError
  /\ (forall word_list, score e word_list <> Raise EmptyInput)
  /\ (forall word_list, score e word_list = Raise ZeroDivisionError ->
        word_list = []).
Proof.
  split; [reflexivity|]. split.
  - intros word_list H. unfold score in H.
    destruct (score_loop e (Fin 0%R) word_list) as [t|x] eqn:E; simpl in H.
    + destruct word_list; discriminate.
    + injection H as ->. apply score_loop_exn in E. tauto.
  - intros word_list H. unfold score in H.
    destruct (score_loop e (Fin 0%R) word_list) as [t|x] eqn:E; simpl in H.
    + destruct word_list; [reflexivity | discriminate].
    + injection H as ->. apply score_loop_exn in E. tauto.
Qed.

(** *** The loop of [score] against the mean of the logarithms *)

Lemma xadd_assoc (a b c : xnum R) :
  xadd Rplus a (xadd Rplus b c) = xadd Rplus (xadd Rplus a b) c.
Proof.
  destruct a, b, c; simpl; try reflexivity.
  f_equal. now rewrite Rplus_assoc.
Qed.

Lemma xadd_0_r (a : xnum R) : xadd Rplus a (Fin 0%R) = a.
Proof. destruct a; simpl; try reflexivity. f_equal. apply Rplus_0_r. Qed.

Lemma xadd_0_l (a : xnum R) : xadd Rplus (Fin 0%R) a = a.
Proof. destruct a; simpl; try reflexivity. f_equal. apply Rplus_0_l. Qed.

Lemma score_loop_sum e word_list : forall acc,
  score_loop e acc word_list =
  (s <- sum_log_proba e word_list ;; Ok (xadd Rplus acc s)).
Proof.
  induction word_list as [|w rest IH]; intros acc; simpl.
  - now rewrite xadd_0_r.
  - unfold log_proba. destruct (predict_proba e w) as [p|x]; simpl; [|reflexivity].
    rewrite IH. destruct (sum_log_proba e rest) as [s|x]; simpl; [|reflexivity].
    now rewrite xadd_assoc.
Qed.

Lemma score_is_mean e word_list :
  word_list <> [] -> score e word_list = mean_log_proba e word_list.
Proof.
  intros Hne. unfold score, mean_log_proba. rewrite score_loop_sum.
  destruct (sum_log_proba e word_list) as [s|x]; cbn [bind]; [|reflexivity].
  rewrite xadd_0_l. destruct word_list; [contradiction | reflexivity].
Qed.

Lemma sum_log_proba_returns e cv word_list :
  count_V e = Some cv ->
  length cv = size (vocab e) ->
  map_exists e ->
  Forall (in_vocab (vocab e)) word_list ->
  exists s, sum_log_proba e word_list = Ok s.
Proof.
  intros Hcv Hlen Hmap. induction 1 as [|w rest Hw _ [s IH]]; simpl.
  - eexists; reflexivity.
  - destruct (predict_proba_known e cv w Hcv Hlen Hmap Hw) as [i [c [_ [_ Hp]]]].
    unfold log_proba. rewrite Hp. simpl. rewrite IH. simpl.
    eexists; reflexivity.
Qed.

(** C7 (score aggregation).  For every non-empty word list over the
    vocabulary and every fitted estimator for which the MAP existence
    condition holds, [score] returns, and what it returns is the arithmetic
    mean of [log(predict_proba(w))] over the words of the list: the sum of
    the per-word log-probabilities divided by the length of the list. *)
Theorem score_aggregation (e : MAPEstimator) (word_list : list string)
  (Hne : word_list <> [])
  (Hknown : Forall (in_vocab (vocab e)) word_list)
  (Hfit : fitted e) (Hmap : map_exists e) :
  exists s,
    sum_log_proba e word_list = Ok s
    /\ score e word_list = Ok (xdiv_nat s (length word_list))
    /\ mean_log_proba e word_list = score e word_list.
Proof.
  destruct (fitted_inv e Hfit) as [cv [Hcv [Hlen _]]].
  destruct (sum_log_proba_returns e cv word_list Hcv Hlen Hmap Hknown) as [s Hs].
  exists s. split; [exact Hs|].
  rewrite (score_is_mean e word_list Hne). unfold mean_log_proba.
  rewrite Hs. simpl. auto.
Qed.

Lemma score_aggregation_witness :
  exists s,
    sum_log_proba dino_est dino_list = Ok s
    /\ score dino_est dino_list = Ok (xdiv_nat s (length dino_list))
    /\ mean_log_proba dino_est dino_list = score dino_est dino_list.
Proof.
  apply (score_aggregation dino_est dino_list).
  - discriminate.
  - repeat constructor; simpl; tauto.
  - exact fitted_dino.
  - exact map_exists_dino.
Defined.

(** ** Range and normalisation of the probabilities *)

Lemma nth_le_sum cv : forall i c,
  nth_error cv i = Some c -> c <= sum_counts cv.
Proof.
  induction cv as [|x cv IH]; intros [|i] c H; simpl in *; try discriminate.
  - injection H as ->. lia.
  - specialize (IH _ _ H). lia.
Qed.

Lemma sum_ge_length cv :
  Forall (fun c => 0 < c) cv -> length cv <= sum_counts cv.
Proof. induction 1; simpl; lia. Qed.

Lemma nth_pos_sum cv : forall i c,
  Forall (fun c => 0 < c) cv ->
  nth_error cv i = Some c ->
  c + length cv <= sum_counts cv + 1.
Proof.
  induction cv as [|x cv IH]; intros [|i] c Hpos H; simpl in *; try discriminate;
    inversion Hpos as [|? ? Hx Hcv]; subst.
  - injection H as ->. pose proof (sum_ge_length cv Hcv). lia.
  - specialize (IH _ _ Hcv H). lia.
Qed.

(** The arithmetic behind the bounds: [C] is the count of the word, [T] the
    total count and [N] the size of the vocabulary. *)
Lemma ratio_bounds (C T N a : Q) :
  (0 <= C)%Q -> (C <= T)%Q -> (1 <= N)%Q ->
  ((1 <= C)%Q /\ (C + N <= T + 1)%Q /\ (0 < a)%Q) \/ (1 < a)%Q ->
  (0 < C + a - 1)%Q /\ (C + a - 1 <= T + N * (a - 1))%Q.
Proof.
  intros HC HCT HN [[H1 [H2 Ha]]|Ha]; split; try lra.
  - assert (0 <= (N - 1) * a)%Q by (apply Qmult_le_0_compat; lra). lra.
  - assert (0 <= (N - 1) * (a - 1))%Q by (apply Qmult_le_0_compat; lra). lra.
Qed.

(** C9, as the claim states it, fails: the constructor accepts a negative
    [alpha]; with [alpha = -1/2] and counts [1; 3] the existence condition
    holds (every word is observed) and [predict_proba] returns [-1/2]. *)
Lemma predict_proba_range_counterexample :
  fitted est_alpha_neg
  /\ map_exists est_alpha_neg
  /\ in_vocab (vocab est_alpha_neg) "a"
  /\ predict_proba est_alpha_neg "a" = Ok (Fin (-2 # 4)%Q)
  /\ (-2 # 4 < 0)%Q.
Proof.
  split; [exact fitted_alpha_neg|].
  split; [left; exists [1; 3]; split; [reflexivity | repeat constructor]|].
  split; [left; reflexivity|].
  split; reflexivity.
Qed.

(** C9 (amended).  For every fitted estimator with [alpha > 0] and every
    word of the vocabulary, whenever the MAP existence condition holds the
    value [predict_proba] returns is a finite number in [[0, 1]]. *)
Theorem predict_proba_range (e : MAPEstimator) (word : string)
  (Hfit : fitted e) (Hmap : map_exists e) (Hin : in_vocab (vocab e) word)
  (Halpha : (0 < alpha e)%Q) :
  exists p, predict_proba e word = Ok (Fin p) /\ (0 <= p)%Q /\ (p <= 1)%Q.
Proof.
  destruct (fitted_inv e Hfit) as [cv [Hcv [Hlen Hsum]]].
  destruct (predict_proba_known e cv word Hcv Hlen Hmap Hin) as [i [c [Hi [Hc Hp]]]].
  assert (Hsize : 1 <= size (vocab e)).
  { apply get_word_id_Ok, index_of_lt in Hi. unfold size. lia. }
  destruct (ratio_bounds (of_nat c) (of_nat (total_count e))
              (of_nat (size (vocab e))) (alpha e)) as [Hnum Hle].
  - apply (of_nat_le 0). lia.
  - apply of_nat_le. rewrite <- Hsum. eapply nth_le_sum; eauto.
  - apply (of_nat_le 1). exact Hsize.
  - destruct Hmap as [[cv' [Hcv' Hpos]]|Hgt]; [left | now right].
    assert (cv' = cv) by congruence. subst cv'.
    split; [|split; [|exact Halpha]].
    + apply (of_nat_le 1). rewrite Forall_forall in Hpos.
      apply Hpos. eapply nth_error_In; eauto.
    + rewrite <- of_nat_add. change 1%Q with (of_nat 1). rewrite <- of_nat_add.
      apply of_nat_le. rewrite <- Hsum, <- Hlen. eapply nth_pos_sum; eauto.
  - fold (numerator e c) in Hnum, Hle. fold (denominator e) in Hle.
    assert (Hden : (0 < denominator e)%Q) by lra.
    exists (numerator e c / denominator e)%Q. split; [|split].
    + rewrite Hp, np_div_finite; [reflexivity|]. lra.
    + apply Qle_shift_div_l; [exact Hden | lra].
    + apply Qle_shift_div_r; [exact Hden | lra].
Qed.

Lemma predict_proba_range_witness :
  exists p, predict_proba dino_est "dinosaur" = Ok (Fin p)
    /\ (0 <= p)%Q /\ (p <= 1)%Q.
Proof.
  apply (predict_proba_range dino_est "dinosaur").
  - exact fitted_dino.
  - exact map_exists_dino.
  - left. reflexivity.
  - reflexivity.
Defined.

Lemma Forall2_of_nth {A B} (P : A -> B -> Prop) (l1 : list A) : forall l2,
  length l1 = length l2 ->
  (forall i a b, nth_error l1 i = Some a -> nth_error l2 i = Some b -> P a b) ->
  Forall2 P l1 l2.
Proof.
  induction l1 as [|a l1 IH]; intros [|b l2] Hlen H; simpl in Hlen;
    try discriminate; constructor.
  - apply (H 0); reflexivity.
  - apply IH; [lia|]. intros i x y Hx Hy. apply (H (S i)); assumption.
Qed.

Lemma sum_proba_over_finite e ws cs :
  Forall2 (fun w c =>
             predict_proba e w = Ok (Fin (numerator e c / denominator e)%Q))
          ws cs ->
  exists s,
    sum_proba_over e ws = Ok (Fin s)
    /\ (s == (of_nat (sum_counts cs) + of_nat (length cs) * (alpha e - 1))
             / denominator e)%Q.
Proof.
  induction 1 as [|w c ws cs Hw _ [s [Hs Heq]]]; simpl.
  - exists 0%Q. split; [reflexivity|]. unfold Qdiv, of_nat. simpl. ring.
  - rewrite Hw, Hs. simpl. eexists. split; [reflexivity|].
    rewrite Heq. unfold numerator.
    change (S (length cs)) with (1 + length cs).
    rewrite !of_nat_add. change (of_nat 1) with 1%Q.
    unfold Qdiv. ring.
Qed.

(** C3, as the claim states it, fails: with [alpha = 0] and both words of
    the vocabulary observed once the existence condition holds, the divisor
    [2 + 2 * (0 - 1)] is zero, every probability is [nan] and so is their
    sum. *)
Lemma sum_proba_counterexample :
  fitted est_alpha0
  /\ map_exists est_alpha0
  /\ vocab_wf (vocab est_alpha0)
  /\ predict_proba est_alpha0 "a" = Ok NaN
  /\ sum_proba est_alpha0 = Ok NaN
  /\ ~ (exists s, sum_proba est_alpha0 = Ok (Fin s) /\ (s == 1)%Q).
Proof.
  split; [exact fitted_alpha0|].
  split; [left; exists [1; 1]; split; [reflexivity | repeat constructor]|].
  split.
  { repeat constructor; simpl; intuition discriminate. }
  split; [reflexivity|]. split; [reflexivity|].
  intros [s [H _]]. discriminate H.
Qed.

(** C3 (amended).  For every fitted estimator over distinct vocabulary
    words for which the MAP existence condition holds and the divisor
    [total_count + vocab.size * (alpha - 1)] is not zero, the sum of
    [predict_proba(w)] over all the words of the vocabulary is 1. *)
Theorem sum_proba_one (e : MAPEstimator)
  (Hfit : fitted e) (Hmap : map_exists e) (Hwf : vocab_wf (vocab e))
  (Hden : ~ (of_nat (total_count e)
             + of_nat (size (vocab e)) * (alpha e - 1) == 0)%Q) :
  exists s, sum_proba e = Ok (Fin s) /\ (s == 1)%Q.
Proof.
  destruct (fitted_inv e Hfit) as [cv [Hcv [Hlen Hsum]]].
  fold (denominator e) in Hden.
  destruct (sum_proba_over_finite e (vocab_words (vocab e)) cv) as [s [Hs Heq]].
  - apply Forall2_of_nth; [now rewrite Hlen|].
    intros i w c Hw Hc.
    assert (Hid : get_word_id (vocab e) w = Ok i).
    { unfold get_word_id. now rewrite (index_of_NoDup _ Hwf _ _ Hw). }
    destruct (predict_proba_known e cv w Hcv Hlen Hmap) as [i' [c' [Hi' [Hc' Hp]]]].
    { eapply nth_error_In; eauto. }
    assert (i' = i) by congruence. subst i'.
    assert (c' = c) by congruence. subst c'.
    now rewrite Hp, np_div_finite.
  - exists s. split; [exact Hs|].
    rewrite Heq, Hsum, Hlen. fold (denominator e).
    unfold Qdiv. now apply Qmult_inv_r.
Qed.

Lemma sum_proba_one_witness :
  exists s, sum_proba dino_est = Ok (Fin s) /\ (s == 1)%Q.
Proof.
  apply (sum_proba_one dino_est).
  - exact fitted_dino.
  - exact map_exists_dino.
  - repeat constructor; simpl; intuition discriminate.
  - intros H. discriminate H.
Defined.

(** * Further properties of the three operations *)

(** ** [fit] on arbitrary word lists *)

(** What the loop of [fit] keeps, whatever the words are: the vocabulary and
    [alpha] are untouched, [count_V] keeps its length, and the loop either
    returns with as many increments of [count_V] as of [total_count], or
    raises [KeyError] with one increment of [total_count] more. *)
Lemma fit_loop_any word_list : forall e cv,
  count_V e = Some cv ->
  length cv = size (vocab e) ->
  exists e' cv' r,
    fit_loop e word_list = (e', r)
    /\ vocab e' = vocab e
    /\ alpha e' = alpha e
    /\ count_V e' = Some cv'
    /\ length cv' = length cv
    /\ total_count e' <= total_count e + length word_list
    /\ ((r = Ok tt
         /\ total_count e' + sum_counts cv = total_count e + sum_counts cv')
        \/ (r = Raise KeyError
            /\ total_count e' + sum_counts cv
               = total_count e + sum_counts cv' + 1)).
Proof.
  induction word_list as [|w rest IH]; intros e cv Hcv Hlen.
  - exists e, cv, (Ok tt). simpl.
    repeat (split; [auto; lia|]). left. split; [reflexivity | lia].
  - simpl. destruct (get_word_id (vocab e) w) as [i|x] eqn:Hi.
    + rewrite Hcv.
      assert (Hlt : i < length cv).
      { apply get_word_id_Ok, index_of_lt in Hi. unfold size in Hlen. lia. }
      assert (Hb : (i <? length cv) = true) by (apply Nat.ltb_lt; exact Hlt).
      rewrite Hb.
      destruct (IH (set_count_V (set_total_count e (total_count e + 1))
                      (Some (incr_at i cv))) (incr_at i cv))
        as [e' [cv' [r [Hfit [Hv [Ha [Hcv' [Hl [Ht Hr]]]]]]]]]; simpl; auto.
      { now rewrite incr_at_length. }
      exists e', cv', r. simpl in *.
      rewrite incr_at_length in Hl. rewrite (incr_at_sum _ _ Hlt) in Hr.
      repeat (split; [auto; lia|]).
      destruct Hr as [[-> Hr]|[-> Hr]]; [left | right]; split; auto; lia.
    + assert (x = KeyError).
      { unfold get_word_id in Hi.
        destruct (index_of w (vocab_words (vocab e))); congruence. }
      subst x.
      exists (set_total_count e (total_count e + 1)), cv, (Raise KeyError).
      simpl. repeat (split; [auto; lia|]). right. split; [reflexivity | lia].
Qed.

Lemma fit_loop_known_iff word_list e cv :
  count_V e = Some cv ->
  length cv = size (vocab e) ->
  (snd (fit_loop e word_list) = Ok tt <-> Forall (in_vocab (vocab e)) word_list).
Proof.
  intros Hcv Hlen. split; intros H.
  - destruct (fit_loop e word_list) as [e' r] eqn:E. simpl in H. subst r.
    eapply fit_loop_returns; eauto.
  - destruct (fit_loop_known word_list e cv Hcv Hlen H) as [cv' [Hfit _]].
    now rewrite Hfit.
Qed.

(** X1.  [fit] returns exactly when every word of the list is in the
    vocabulary; otherwise it raises [KeyError], and it raises nothing
    else. *)
Theorem fit_outcome (e0 : MAPEstimator) (word_list : list string) :
  (snd (fit e0 word_list) = Ok tt
     <-> Forall (in_vocab (vocab e0)) word_list)
  /\ (snd (fit e0 word_list) = Raise KeyError
     <-> ~ Forall (in_vocab (vocab e0)) word_list).
Proof.
  pose (e2 := set_total_count
                (set_count_V e0 (Some (repeat 0 (size (vocab e0))))) 0).
  assert (Hiff : snd (fit e0 word_list) = Ok tt
                 <-> Forall (in_vocab (vocab e0)) word_list).
  { apply (fit_loop_known_iff word_list e2 (repeat 0 (size (vocab e0))));
      [reflexivity | apply repeat_length]. }
  split; [exact Hiff|].
  destruct (fit_loop_any word_list e2 (repeat 0 (size (vocab e0))))
    as [e' [cv' [r [Hfit [_ [_ [_ [_ [_ Hr]]]]]]]]];
    [reflexivity | apply repeat_length |].
  unfold fit. fold e2. unfold fit in Hiff. fold e2 in Hiff.
  rewrite Hfit in *. simpl in *.
  destruct Hr as [[-> _]|[-> _]]; split; intros H.
  - discriminate.
  - exfalso. apply H. apply Hiff. reflexivity.
  - intros Hall. apply Hiff in Hall. discriminate.
  - reflexivity.
Qed.

(** X2.  Whatever the word list, and whether [fit] returns or raises, the
    state it leaves has the vocabulary and [alpha] it started with, a
    [count_V] of [vocab.size] entries, and a [total_count] that is the sum
    of [count_V] when [fit] returned and one more when it raised; it is
    never more than the length of the list. *)
Theorem fit_state_invariant (e0 : MAPEstimator) (word_list : list string) :
  exists cv,
    vocab (fst (fit e0 word_list)) = vocab e0
    /\ alpha (fst (fit e0 word_list)) = alpha e0
    /\ count_V (fst (fit e0 word_list)) = Some cv
    /\ length cv = size (vocab e0)
    /\ total_count (fst (fit e0 word_list)) <= length word_list
    /\ (snd (fit e0 word_list) = Ok tt ->
        total_count (fst (fit e0 word_list)) = sum_counts cv)
    /\ (snd (fit e0 word_list) <> Ok tt ->
        total_count (fst (fit e0 word_list)) = sum_counts cv + 1).
Proof.
  destruct (fit_loop_any word_list
              (set_total_count
                 (set_count_V e0 (Some (repeat 0 (size (vocab e0))))) 0)
              (repeat 0 (size (vocab e0))))
    as [e' [cv' [r [Hfit [Hv [Ha [Hcv' [Hl [Ht Hr]]]]]]]]];
    [reflexivity | apply repeat_length |].
  unfold fit. rewrite Hfit. simpl in *.
  rewrite sum_counts_repeat in Hr. rewrite repeat_length in Hl.
  exists cv'. repeat split; auto.
  - destruct Hr as [[-> Hr]|[-> Hr]]; intros H; [lia | discriminate].
  - destruct Hr as [[-> Hr]|[-> Hr]]; intros H; [congruence | lia].
Qed.

(** ** [fit] counts words, not positions *)

Lemma incr_at_comm i j cv :
  incr_at i (incr_at j cv) = incr_at j (incr_at i cv).
Proof.
  revert i j; induction cv as [|c cv IH]; intros [|i] [|j]; simpl; auto.
  now rewrite IH.
Qed.

Lemma fit_loop_step e cv w i rest :
  count_V e = Some cv ->
  get_word_id (vocab e) w = Ok i ->
  i < length cv ->
  fit_loop e (w :: rest) =
  fit_loop (mkMAPEstimator (vocab e) (alpha e) (total_count e + 1)
              (Some (incr_at i cv))) rest.
Proof.
  intros Hcv Hi Hlt. simpl. rewrite Hi, Hcv.
  assert (Hb : (i <? length cv) = true) by (apply Nat.ltb_lt; exact Hlt).
  now rewrite Hb.
Qed.

Lemma fit_loop_permutation L1 L2 :
  Permutation L1 L2 ->
  forall e cv,
    count_V e = Some cv ->
    length cv = size (vocab e) ->
    Forall (in_vocab (vocab e)) L1 ->
    fit_loop e L1 = fit_loop e L2.
Proof.
  induction 1 as [|x l l' Hperm IH|x y l|l l' l'' H1 IH1 H2 IH2];
    intros e cv Hcv Hlen Hall.
  - reflexivity.
  - inversion Hall as [|? ? Hx Hl]; subst.
    destruct (get_word_id_known _ _ Hx) as [i [Hi Hlt]].
    rewrite !(fit_loop_step e cv x i) by (auto; lia).
    apply (IH _ (incr_at i cv)); simpl; auto.
    now rewrite incr_at_length.
  - inversion Hall as [|? ? Hy Hl]; subst.
    inversion Hl as [|? ? Hx Hl']; subst.
    destruct (get_word_id_known _ _ Hx) as [i [Hi Hilt]].
    destruct (get_word_id_known _ _ Hy) as [j [Hj Hjlt]].
    rewrite (fit_loop_step e cv y j) by (auto; lia).
    rewrite (fit_loop_step e cv x i) by (auto; lia).
    rewrite (fit_loop_step _ (incr_at j cv) x i)
      by (simpl; auto; rewrite incr_at_length; lia).
    rewrite (fit_loop_step _ (incr_at i cv) y j)
      by (simpl; auto; rewrite incr_at_length; lia).
    simpl. now rewrite (incr_at_comm i j).
  - rewrite (IH1 e cv Hcv Hlen Hall). apply (IH2 e cv Hcv Hlen).
    eapply Permutation_Forall; eauto.
Qed.

(** X3.  [fit] depends on the words of the list, not on their order: two
    lists over the vocabulary that are permutations of each other leave the
    same state. *)
Theorem fit_permutation (e0 : MAPEstimator) (L1 L2 : list string)
  (Hperm : Permutation L1 L2)
  (Hknown : Forall (in_vocab (vocab e0)) L1) :
  fit e0 L1 = fit e0 L2.
Proof.
  unfold fit.
  apply (fit_loop_permutation L1 L2 Hperm _ (repeat 0 (size (vocab e0))));
    simpl; auto.
  apply repeat_length.
Qed.

Lemma fit_permutation_witness :
  fit (init ab_vocab 2) ["a"%string; "b"%string; "a"%string]
  = fit (init ab_vocab 2) ["b"%string; "a"%string; "a"%string].
Proof.
  apply (fit_permutation (init ab_vocab 2)).
  - apply perm_swap.
  - repeat constructor; simpl; tauto.
Defined.

(** ** [fit] followed by [predict_proba] *)

(** X4.  After [fit] has returned on a word list, [predict_proba] of a
    vocabulary word, when the existence check passes, is the number of
    occurrences of the word in the list plus [alpha - 1], over the length
    of the list plus [vocab.size * (alpha - 1)]. *)
Theorem fit_then_predict (e0 : MAPEstimator) (word_list : list string)
  (e : MAPEstimator) (word : string)
  (Hfit : fit e0 word_list = (e, Ok tt))
  (Hmap : map_exists e)
  (Hin : in_vocab (vocab e0) word) :
  predict_proba e word =
  Ok (np_div
        (of_nat (count_occ string_dec word_list word) + alpha e0 - 1)%Q
        (of_nat (length word_list)
         + of_nat (size (vocab e0)) * (alpha e0 - 1))%Q).
Proof.
  destruct (fit_slots _ _ _ Hfit) as [cv [-> [Hlen [_ Hn]]]].
  destruct (predict_proba_known
              (mkMAPEstimator (vocab e0) (alpha e0) (length word_list) (Some cv))
              cv word) as [i [c [Hi [Hc Hp]]]]; simpl; auto.
  simpl in Hi. rewrite (Hn _ _ Hi) in Hc. injection Hc as <-.
  exact Hp.
Qed.

Lemma fit_then_predict_witness :
  predict_proba dino_est "trex" =
  Ok (np_div
        (of_nat (count_occ string_dec dino_list "trex"%string) + 2 - 1)%Q
        (of_nat (length dino_list) + of_nat (size dino_vocab) * (2 - 1))%Q).
Proof.
  apply (fit_then_predict (init dino_vocab 2) dino_list dino_est "trex").
  - reflexivity.
  - right. reflexivity.
  - right. left. reflexivity.
Defined.

(** X5.  On a fitted estimator the outcome of [predict_proba] is decided by
    the existence condition and by membership in the vocabulary: the
    invalid-hyperparameter error exactly when the condition fails, the
    unknown-word error exactly when it holds and the word is not in the
    vocabulary, a value exactly when it holds and the word is in the
    vocabulary.  No other error is raised. *)
Theorem predict_proba_outcome (e : MAPEstimator) (word : string)
  (Hfit : fitted e) :
  (predict_proba e word = Raise ValueError <-> ~ map_exists e)
  /\ (predict_proba e word = Raise KeyError
      <-> map_exists e /\ ~ in_vocab (vocab e) word)
  /\ ((exists p, predict_proba e word = Ok p)
      <-> map_exists e /\ in_vocab (vocab e) word).
Proof.
  destruct (fitted_inv e Hfit) as [cv [Hcv [Hlen _]]].
  pose proof (map_exists_iff e cv Hcv Hlen) as Hiff.
  destruct (all_vocab_seen e cv || Qlt_bool 1 (alpha e)) eqn:Hb.
  - assert (Hmap : map_exists e) by (apply Hiff; reflexivity).
    destruct (in_dec string_dec word (vocab_words (vocab e))) as [Hin|Hout].
    + destruct (predict_proba_known e cv word Hcv Hlen Hmap Hin)
        as [i [c [_ [_ Hp]]]].
      rewrite Hp. split; [|split]; split; intros H.
      * discriminate.
      * contradiction.
      * discriminate.
      * destruct H as [_ H]. exfalso. exact (H Hin).
      * split; assumption.
      * eexists; reflexivity.
    + rewrite (predict_proba_unknown e cv word Hcv Hlen Hmap Hout).
      split; [|split]; split; intros H.
      * discriminate.
      * contradiction.
      * split; assumption.
      * reflexivity.
      * destruct H as [p H]. discriminate.
      * destruct H as [_ H]. exfalso. exact (Hout H).
  - assert (Hno : ~ map_exists e).
    { intros H. apply Hiff in H. discriminate. }
    rewrite (predict_proba_raises e cv word Hcv Hlen Hno).
    split; [|split]; split; intros H.
    + assumption.
    + reflexivity.
    + discriminate.
    + destruct H as [H _]. contradiction.
    + destruct H as [p H]. discriminate.
    + destruct H as [H _]. contradiction.
Qed.

Lemma predict_proba_outcome_witness :
  (predict_proba est_alpha1_unseen "a" = Raise ValueError
     <-> ~ map_exists est_alpha1_unseen)
  /\ (predict_proba est_alpha1_unseen "a" = Raise KeyError
      <-> map_exists est_alpha1_unseen
          /\ ~ in_vocab (vocab est_alpha1_unseen) "a")
  /\ ((exists p, predict_proba est_alpha1_unseen "a" = Ok p)
      <-> map_exists est_alpha1_unseen
          /\ in_vocab (vocab est_alpha1_unseen) "a").
Proof.
  apply (predict_proba_outcome est_alpha1_unseen "a").
  exists (init ab_vocab 1), ["a"%string]. reflexivity.
Defined.

(** ** Order and positivity of the probabilities *)

Lemma slot_bounds e cv i c :
  count_V e = Some cv ->
  length cv = size (vocab e) ->
  sum_counts cv = total_count e ->
  map_exists e ->
  (0 < alpha e)%Q ->
  nth_error cv i = Some c ->
  (0 < numerator e c)%Q /\ (numerator e c <= denominator e)%Q.
Proof.
  intros Hcv Hlen Hsum Hmap Halpha Hc.
  assert (Hsize : 1 <= size (vocab e)).
  { rewrite <- Hlen. assert (i < length cv) by (apply nth_error_Some; congruence).
    lia. }
  apply (ratio_bounds (of_nat c) (of_nat (total_count e))
           (of_nat (size (vocab e))) (alpha e)).
  - apply (of_nat_le 0). lia.
  - apply of_nat_le. rewrite <- Hsum. eapply nth_le_sum; eauto.
  - apply (of_nat_le 1). exact Hsize.
  - destruct Hmap as [[cv' [Hcv' Hpos]]|Hgt]; [left | now right].
    assert (cv' = cv) by congruence. subst cv'.
    split; [|split; [|exact Halpha]].
    + apply (of_nat_le 1). rewrite Forall_forall in Hpos.
      apply Hpos. eapply nth_error_In; eauto.
    + rewrite <- of_nat_add. change 1%Q with (of_nat 1). rewrite <- of_nat_add.
      apply of_nat_le. rewrite <- Hsum, <- Hlen. eapply nth_pos_sum; eauto.
Qed.

Lemma predict_after_fit e0 word_list e word :
  fit e0 word_list = (e, Ok tt) ->
  map_exists e ->
  (0 < alpha e0)%Q ->
  in_vocab (vocab e0) word ->
  (0 < numerator e (count_occ string_dec word_list word))%Q
  /\ (numerator e (count_occ string_dec word_list word) <= denominator e)%Q
  /\ predict_proba e word =
     Ok (Fin (numerator e (count_occ string_dec word_list word)
              / denominator e)%Q).
Proof.
  intros Hfit Hmap Halpha Hin.
  destruct (fit_known e0 word_list) as [cv [Hfit' [Hlen [Hsum Hn]]]].
  { unfold fit in Hfit. apply fit_loop_returns in Hfit. exact Hfit. }
  rewrite Hfit' in Hfit. injection Hfit as <-.
  destruct (predict_proba_known
              (mkMAPEstimator (vocab e0) (alpha e0) (length word_list) (Some cv))
              cv word) as [i [c [Hi [Hc Hp]]]]; simpl; auto.
  simpl in Hi. pose proof Hc as Hc'. rewrite (Hn _ _ Hi) in Hc'.
  injection Hc' as <-.
  destruct (slot_bounds
              (mkMAPEstimator (vocab e0) (alpha e0) (length word_list) (Some cv))
              cv i _ eq_refl Hlen Hsum Hmap Halpha Hc) as [Hnum Hle].
  split; [exact Hnum|]. split; [exact Hle|].
  rewrite Hp, np_div_finite; [reflexivity|]. lra.
Qed.





(** ** Errors and range of [score] *)

Lemma score_loop_unknown e cv word_list :
  count_V e = Some cv ->
  length cv = size (vocab e) ->
  map_exists e ->
  ~ Forall (in_vocab (vocab e)) word_list ->
  forall acc, score_loop e acc word_list = Raise KeyError.
Proof.
  intros Hcv Hlen Hmap.
  induction word_list as [|w rest IH]; intros Hnot acc.
  - exfalso. apply Hnot. constructor.
  - simpl.
    destruct (in_dec string_dec w (vocab_words (vocab e))) as [Hin|Hout].
    + destruct (predict_proba_known e cv w Hcv Hlen Hmap Hin)
        as [i [c [_ [_ Hp]]]].
      rewrite Hp. simpl. apply IH. intros Hrest. apply Hnot.
      constructor; assumption.
    + now rewrite (predict_proba_unknown e cv w Hcv Hlen Hmap Hout).
Qed.

(** X8.  On a fitted estimator [score] passes on the error of
    [predict_proba]: for a non-empty list it raises the
    invalid-hyperparameter error when the existence condition fails, and
    when the condition holds and some word of the list is not in the
    vocabulary it raises the unknown-word error. *)
Theorem score_propagates (e : MAPEstimator) (word_list : list string)
  (Hfit : fitted e) :
  (~ map_exists e -> word_list <> [] ->
     score e word_list = Raise ValueError)
  /\ (map_exists e -> ~ Forall (in_vocab (vocab e)) word_list ->
     score e word_list = Raise KeyError).
Proof.
  destruct (fitted_inv e Hfit) as [cv [Hcv [Hlen _]]].
  split.
  - intros Hno Hne. destruct word_list as [|w rest]; [contradiction|].
    unfold score. simpl.
    now rewrite (predict_proba_raises e cv w Hcv Hlen Hno).
  - intros Hmap Hnot. unfold score.
    now rewrite (score_loop_unknown e cv word_list Hcv Hlen Hmap Hnot).
Qed.

Lemma score_propagates_witness :
  score est_alpha1_unseen ["a"%string] = Raise ValueError
  /\ score dino_est ["trex"%string; "zebra"%string] = Raise KeyError.
Proof.
  split.
  - apply (score_propagates est_alpha1_unseen ["a"%string]).
    + exists (init ab_vocab 1), ["a"%string]. reflexivity.
    + exact map_fails_alpha1_unseen.
    + discriminate.
  - apply (score_propagates dino_est ["trex"%string; "zebra"%string]).
    + exists (init dino_vocab 2), dino_list. reflexivity.
    + right. reflexivity.
    + intros H. inversion H as [|? ? _ H']; subst.
      inversion H' as [|? ? Hz _]; subst.
      destruct Hz as [Hz|[Hz|[Hz|[]]]]; discriminate.
Defined.

Lemma ln_nonpos (q : Q) :
  (0 < q)%Q -> (q <= 1)%Q -> (ln (Q2R q) <= 0)%R.
Proof.
  intros Hpos Hle.
  apply Qlt_Rlt in Hpos. apply Qle_Rle in Hle.
  rewrite RMicromega.Q2R_0 in Hpos. rewrite RMicromega.Q2R_1 in Hle.
  destruct (Rle_lt_or_eq_dec _ _ Hle) as [Hlt|Heq].
  - rewrite <- ln_1. apply Rlt_le. now apply ln_increasing.
  - rewrite Heq, ln_1. apply Rle_refl.
Qed.

Lemma np_log_nonpos (q : Q) :
  (0 < q)%Q -> (q <= 1)%Q ->
  exists l, np_log (Fin q) = Fin l /\ (l <= 0)%R.
Proof.
  intros Hpos Hle. unfold np_log.
  rewrite (proj2 (Qlt_bool_iff 0 q) Hpos).
  eexists. split; [reflexivity|]. now apply ln_nonpos.
Qed.

Lemma sum_log_proba_nonpos e0 corpus e word_list :
  fit e0 corpus = (e, Ok tt) ->
  map_exists e ->
  (0 < alpha e0)%Q ->
  Forall (in_vocab (vocab e0)) word_list ->
  exists s, sum_log_proba e word_list = Ok (Fin s) /\ (s <= 0)%R.
Proof.
  intros Hfit Hmap Halpha.
  induction 1 as [|w rest Hw _ [s [Hs Hle]]]; simpl.
  - exists 0%R. split; [reflexivity | apply Rle_refl].
  - destruct (predict_after_fit _ _ _ w Hfit Hmap Halpha Hw) as [Hn [Hd Hp]].
    assert (Hden : (0 < denominator e)%Q) by lra.
    destruct (np_log_nonpos
                (numerator e (count_occ string_dec corpus w) / denominator e)%Q)
      as [l [Hl Hl0]].
    + apply Qlt_shift_div_l; [exact Hden | lra].
    + apply Qle_shift_div_r; [exact Hden | lra].
    + unfold log_proba. rewrite Hp. cbn [bind]. rewrite Hl, Hs. cbn [bind xadd].
      eexists. split; [reflexivity | lra].
Qed.

(** X9.  On an estimator fitted with [alpha > 0] for which the existence
    condition holds, [score] of a non-empty list over the vocabulary returns
    a finite number that is at most zero (never [nan] and never
    [-inf]). *)
Theorem score_nonpositive (e0 : MAPEstimator) (corpus : list string)
  (e : MAPEstimator) (word_list : list string)
  (Hfit : fit e0 corpus = (e, Ok tt))
  (Hmap : map_exists e)
  (Halpha : (0 < alpha e0)%Q)
  (Hne : word_list <> [])
  (Hknown : Forall (in_vocab (vocab e0)) word_list) :
  exists s, score e word_list = Ok (Fin s) /\ (s <= 0)%R.
Proof.
  destruct (sum_log_proba_nonpos _ _ _ _ Hfit Hmap Halpha Hknown) as [s [Hs Hle]].
  rewrite (score_is_mean e word_list Hne). unfold mean_log_proba.
  rewrite Hs. cbn [bind xdiv_nat].
  eexists. split; [reflexivity|].
  assert (Hlen : (0 < INR (length word_list))%R).
  { apply lt_0_INR. destruct word_list; [contradiction | simpl; lia]. }
  unfold Rdiv. apply Rinv_0_lt_compat in Hlen. nra.
Qed.

Lemma score_nonpositive_witness :
  exists s, score dino_est ["trex"%string; "dinosaur"%string] = Ok (Fin s)
    /\ (s <= 0)%R.
Proof.
  apply (score_nonpositive (init dino_vocab 2) dino_list dino_est
           ["trex"%string; "dinosaur"%string]).
  - reflexivity.
  - right. reflexivity.
  - reflexivity.
  - discriminate.
  - repeat constructor; simpl; tauto.
Defined.

(** ** Querying before and after a call of [fit] *)

Lemma predict_proba_cases e cv word :
  count_V e = Some cv ->
  length cv = size (vocab e) ->
  predict_proba e word = Raise ValueError
  \/ predict_proba e word = Raise KeyError
  \/ exists p, predict_proba e word = Ok p.
Proof.
  intros Hcv Hlen. unfold predict_proba. rewrite Hcv.
  destruct (negb _); [now left|]. right.
  unfold get_word_id.
  destruct (index_of word (vocab_words (vocab e))) as [i|] eqn:Hi; simpl;
    [|now left].
  right. apply index_of_lt in Hi.
  destruct (nth_error cv i) as [c|] eqn:Hc; [eexists; reflexivity|].
  apply nth_error_None in Hc. unfold size in Hlen. lia.
Qed.

(** X10.  An estimator that was never fitted cannot be queried:
    [predict_proba] raises [TypeError] on every word, and so does [score] on
    every non-empty list.  After any call of [fit], whether it returned or
    raised, [predict_proba] raises neither [TypeError] nor [IndexError]: it
    returns a value or raises one of its two documented errors. *)
Theorem predict_proba_needs_fit (v : Vocabulary) (a : Q) (e0 : MAPEstimator)
  (word_list : list string) (word : string) :
  predict_proba (init v a) word = Raise TypeError
  /\ score (init v a) (word :: word_list) = Raise TypeError
  /\ (predict_proba (fst (fit e0 word_list)) word = Raise ValueError
      \/ predict_proba (fst (fit e0 word_list)) word = Raise KeyError
      \/ exists p, predict_proba (fst (fit e0 word_list)) word = Ok p).
Proof.
  split; [reflexivity|]. split; [reflexivity|].
  destruct (fit_loop_any word_list
              (set_total_count
                 (set_count_V e0 (Some (repeat 0 (size (vocab e0))))) 0)
              (repeat 0 (size (vocab e0))))
    as [e' [cv' [r [Hfit [Hv [_ [Hcv' [Hl _]]]]]]]];
    [reflexivity | apply repeat_length |].
  unfold fit. rewrite Hfit. simpl fst.
  apply (predict_proba_cases e' cv' word Hcv').
  rewrite Hl, repeat_length, Hv. reflexivity.
Qed.

(** ** The probability mass after a failed [fit] *)



